(** * keel: from a push event to a submitted job

A shallow embedding of the two packages of the repository that the
specification talks about:

- package [keel] (the service): [RepoConfig] with its two methods
  [TemplatePath] and [ShouldRun], and [Service.RunJob], including the
  two goroutines that render the job template into one end of an
  [io.Pipe] while the other end is decoded into a pod specification;
- the handlers of the service around it: [handleGithubWebhook],
  [processPushEvent] and [ListJobs];
- package [store]: the [Jobs] and [Logs] interfaces.

Go values are modelled as follows.  A Go [error] is a value of the
inductive type [error]; the nil error is [None : option error].  A Go
[string] is a [string], a [[]byte] is a [list byte], a
[map[string]string] is a [gmap string string].  Calls into other
packages (the file provider, the YAML decoder, the template engine, the
executor) are parameters of the development. *)

From Stdlib Require Import Init.Byte.
From stdpp Require Import gmap strings list fin_maps pretty.

Set Default Proof Using "Type".

(** ** Errors *)

Module errors.

(** A Go error value.  [errorString] stands for an error made by a
  collaborator ([fmt.Errorf] without [%w], a YAML or template error, an
  I/O error); [wrapError msg err] is what [xerrors.Errorf] builds
  when its format ends in [": %w"]: the formatted prefix [msg] and the
  wrapped cause [err]. *)
Inductive error : Type :=
| errorString (s : string)
| wrapError (msg : string) (err : error).

(** The [Error()] method. *)
Fixpoint Error (e : error) : string :=
match e with
| errorString s => s
| wrapError msg err => msg +:+ ": " +:+ Error err
end.

(** [xerrors.Unwrap]. *)
Definition Unwrap (e : error) : option error :=
match e with
| errorString _ => None
| wrapError _ err => Some err
end.

(** A function returning [(T, error)] where the value is only meaningful
  when the error is nil. *)
Inductive result (T : Type) : Type :=
| ok (v : T)
| fail (e : error).
Global Arguments ok {T} v.
Global Arguments fail {T} e.

End errors.

Export errors.

(** ** Package keel *)

Module keel.

(** [JobContext]: the repository and revision a job is started for.  The
  three fields are the ones [processPushEvent] fills in and [RunJob]
  reads. *)
Record JobContext : Type := {
Owner : string;
Repo : string;
Revision : string
}.

(** [RepoConfig] is the struct we expect to find in the repo root. *)
Record RepoConfig : Type := {
DefaultJob : string
}.

Section TriggerEvaluator.

(** The declaration of [JobTrigger] and of its constant
    [JobTriggerPush] is not among the sources: both are taken as
    parameters. *)
Context {JobTrigger : Type}.

(** [func (rc *RepoConfig) TemplatePath(trigger JobTrigger) string] *)
Definition TemplatePath (rc : RepoConfig) (trigger : JobTrigger) : string :=
  DefaultJob rc.

(** [func (rc *RepoConfig) ShouldRun(trigger JobTrigger) bool] *)
Definition ShouldRun (rc : RepoConfig) (trigger : JobTrigger) : bool :=
  true.

End TriggerEvaluator.

(** *** The pipe between the two goroutines

  [yaml.NewDecoder(pr).Decode(&podspec)] is a consumer of the read end
  of the pipe.  From the outside it is a machine that either asks for a
  [Read] into a buffer of [n] bytes and goes on with the bytes it got,
  or returns: [DReturn spec terr] leaves [spec] in [podspec] and
  hands back [terr].  [RunJob] never closes either end of the pipe, so
  a [Read] never sees an end of stream and the machine has no case for
  it. *)
Inductive Decoder (PodSpec : Type) : Type :=
| DRead (n : nat) (k : list byte → Decoder PodSpec)
| DReturn (spec : PodSpec) (terr : option error).
Global Arguments DRead {PodSpec} n k.
Global Arguments DReturn {PodSpec} spec terr.

(** [jobTpl.Execute(pw, jc)] is the producer: it issues a sequence of
  [Write] calls on the write end and then returns [rresult].  A [Write]
  on a pipe whose read end is never closed cannot fail, so the sequence
  does not depend on what the writes return. *)
Record Rendering : Type := {
writes : list (list byte);
rresult : option error
}.

(** The two goroutines. *)
Inductive tid : Type := GoDecode | GoRender.

Section Compile.

Context {PodSpec : Type}.

(** Where the decoding goroutine stands:
<<
    terr := yaml.NewDecoder(pr).Decode(&podspec)    DecodeRunning
    if terr != nil { err = terr }                   DecodeReturned
    wg.Done()                                       DecodeDone
>> *)
Inductive decode_pc : Type :=
| DecodeRunning (d : Decoder PodSpec)
| DecodeReturned (terr : option error)
| DecodeDone.

(** Where the rendering goroutine stands:
<<
    terr := jobTpl.Execute(pw, jc)                  RenderRunning
    if err != nil {                                 RenderReturned
        err = terr                                  RenderAssign
    }
    wg.Done()                                       RenderDone
>>
    The test reads the shared [err] and the assignment writes it: the
    two are separate steps, the other goroutine may run in between. *)
Inductive render_pc : Type :=
| RenderRunning (ws : list (list byte)) (terr : option error)
| RenderReturned (terr : option error)
| RenderAssign (terr : option error)
| RenderDone.

(** The variables the goroutines share with [RunJob]: the named result
    [err] and the local [podspec]. *)
Record compile_state : Type := {
  st_decode : decode_pc;
  st_render : render_pc;
  st_err : option error;
  st_podspec : PodSpec
}.

(** What is left of a [Write] of [b] once a [Read] into [n] bytes took
    its share: the call returns when nothing is left, otherwise it
    stays pending in front of the writes still to come. *)
Definition after_read (n : nat) (b : list byte) (ws : list (list byte))
  : list (list byte) :=
  match drop n b with
  | [] => ws
  | c :: rest => (c :: rest) :: ws
  end.

(** A pending [Read] meets a pending [Write]: [io.Pipe] copies as many
    bytes as fit the reader's buffer, the [Read] returns them. *)
Definition rendezvous (n : nat) (k : list byte → Decoder PodSpec)
    (b : list byte) (ws : list (list byte)) (terr : option error)
    (st : compile_state) : compile_state :=
  {| st_decode := DecodeRunning (k (take n b));
     st_render := RenderRunning (after_read n b ws) terr;
     st_err := st_err st;
     st_podspec := st_podspec st |}.

(** One step of the decoding goroutine; the state is unchanged when the
    goroutine is blocked on the pipe or has finished. *)
Definition step_decode (st : compile_state) : compile_state :=
  match st_decode st with
  | DecodeRunning (DReturn spec terr) =>
      {| st_decode := DecodeReturned terr;
         st_render := st_render st;
         st_err := st_err st;
         st_podspec := spec |}
  | DecodeRunning (DRead n k) =>
      match st_render st with
      | RenderRunning (b :: ws) terr => rendezvous n k b ws terr st
      | _ => st
      end
  | DecodeReturned terr =>
      {| st_decode := DecodeDone;
         st_render := st_render st;
         st_err := match terr with Some _ => terr | None => st_err st end;
         st_podspec := st_podspec st |}
  | DecodeDone => st
  end.

(** One step of the rendering goroutine. *)
Definition step_render (st : compile_state) : compile_state :=
  match st_render st with
  | RenderRunning [] terr =>
      {| st_decode := st_decode st;
         st_render := RenderReturned terr;
         st_err := st_err st;
         st_podspec := st_podspec st |}
  | RenderRunning (b :: ws) terr =>
      match st_decode st with
      | DecodeRunning (DRead n k) => rendezvous n k b ws terr st
      | _ => st
      end
  | RenderReturned terr =>
      {| st_decode := st_decode st;
         st_render := match st_err st with
                      | Some _ => RenderAssign terr
                      | None => RenderDone
                      end;
         st_err := st_err st;
         st_podspec := st_podspec st |}
  | RenderAssign terr =>
      {| st_decode := st_decode st;
         st_render := RenderDone;
         st_err := terr;
         st_podspec := st_podspec st |}
  | RenderDone => st
  end.

Definition step (t : tid) (st : compile_state) : compile_state :=
  match t with
  | GoDecode => step_decode st
  | GoRender => step_render st
  end.

(** An interleaving is the list of the goroutines in the order the
    scheduler picks them. *)
Fixpoint run (sched : list tid) (st : compile_state) : compile_state :=
  match sched with
  | [] => st
  | t :: sched' => run sched' (step t st)
  end.

(** [wg.Wait()] returns once both goroutines called [wg.Done()]. *)
Definition joined (st : compile_state) : bool :=
  match st_decode st, st_render st with
  | DecodeDone, RenderDone => true
  | _, _ => false
  end.

(** The state at [wg.Add(2)]: [err] is nil (every earlier failure has
    returned) and [podspec] holds its zero value. *)
Definition spawn (zero : PodSpec) (d : Decoder PodSpec) (r : Rendering)
  : compile_state :=
  {| st_decode := DecodeRunning d;
     st_render := RenderRunning (writes r) (rresult r);
     st_err := None;
     st_podspec := zero |}.

(** Lines 138 to 160 of [RunJob]: what [podspec] and [err] hold when
    [wg.Wait()] returns, [None] when the interleaving ends before it
    does. *)
Definition compile (sched : list tid) (zero : PodSpec)
    (d : Decoder PodSpec) (r : Rendering) : option (PodSpec * option error) :=
  let st := run sched (spawn zero d r) in
  if joined st then Some (st_podspec st, st_err st) else None.

(** *** What the pipe decides

The bytes a [Read] gets depend on the writes and on the sizes of the
reads only, not on the interleaving.  [feed d ws] runs the decoder [d]
against the writes [ws] that are still to be consumed: the pod
specification and the error it returns with, and the writes it has not
consumed then; [None] when the decoder asks for bytes after the last
write. *)
Fixpoint feed (d : Decoder PodSpec) (ws : list (list byte))
  : option (PodSpec * option error * list (list byte)) :=
  match d with
  | DReturn spec terr => Some (spec, terr, ws)
  | DRead n k =>
      match ws with
      | [] => None
      | b :: ws' => feed (k (take n b)) (after_read n b ws')
      end
  end.

(** The writes the rendering goroutine has not completed. *)
Definition pending (st : compile_state) : list (list byte) :=
  match st_render st with
  | RenderRunning ws _ => ws
  | _ => []
  end.

(** What [podspec] will hold when the decoder has returned. *)
Definition fate (st : compile_state) : option PodSpec :=
  match st_decode st with
  | DecodeRunning d => (λ x, x.1.1) <$> feed d (pending st)
  | _ => Some (st_podspec st)
  end.

(** The error the decoder returns or has returned with, as long as the
goroutine has not dealt with it. *)
Definition decode_error (st : compile_state) : option (option error) :=
  match st_decode st with
  | DecodeRunning d => (λ x, x.1.2) <$> feed d (pending st)
  | DecodeReturned terr => Some terr
  | DecodeDone => None
  end.

(** As long as the decoder does not fail, [err] stays nil and the
rendering goroutine never gets to its assignment. *)
Definition quiet (st : compile_state) : Prop :=
  st_err st = None
  ∧ (∀ terr, decode_error st = Some terr → terr = None)
  ∧ (∀ terr, st_render st ≠ RenderAssign terr).

(** Whether both goroutines can still get to [wg.Done()]: the decoder
must return, and no write may be left when it does. *)
Definition can_finish (st : compile_state) : bool :=
  match st_decode st with
  | DecodeRunning d =>
      match feed d (pending st) with
      | Some (_, _, []) => true
      | _ => false
      end
  | _ => match pending st with [] => true | _ => false end
  end.

(** An interleaving that gets both goroutines to [wg.Done()] when the
decoder needs no more than [reads] reads: the decoding goroutine runs
until it is done, then the rendering goroutine. *)
Definition decode_first (reads : nat) : list tid :=
  replicate (reads + 2) GoDecode ++ replicate 3 GoRender.

(** The number of reads of the decoder [d] against the writes [ws]. *)
Fixpoint reads_of (d : Decoder PodSpec) (ws : list (list byte)) : nat :=
  match d with
  | DReturn _ _ => 0
  | DRead n k =>
      match ws with
      | [] => 0
      | b :: ws' => S (reads_of (k (take n b)) (after_read n b ws'))
      end
  end.

End Compile.

(** *** What [RunJob] calls

The declarations and packages [RunJob] uses and the sources do not
contain.  [JobTrigger], [JobTriggerPush] and the [String] method of
[JobContext] are declared in a file of the package that is not among
the sources; [corev1.PodSpec] with its zero value, [io.ReadCloser],
[*template.Template], the YAML decoder, [ioutil.ReadAll], the template
engine with the sprig function map, and [Executor.Start] belong to
other packages. *)
Class Imports : Type := {
  JobTrigger : Type;
  JobTriggerPush : JobTrigger;
  JobContext_String : JobContext → string;
  PodSpec : Type;
  PodSpec_zero : PodSpec;
  ReadCloser : Type;
  Template : Type;
  (** [yaml.NewDecoder(keelYAML).Decode(&repoCfg)] *)
  yaml_Decode_RepoConfig : ReadCloser → result RepoConfig;
  (** [ioutil.ReadAll(jobTplYAML)] *)
  ioutil_ReadAll : ReadCloser → result (list byte);
  (** [template.New("job").Funcs(sprig.FuncMap()).Parse(text)] *)
  template_Parse : string → result Template;
  (** [jobTpl.Execute(pw, jc)], as it runs at the time of the call: the
  functions of the sprig map read the clock, the random source and the
  environment of the process, see [sprig.World] *)
  template_Execute : Template → JobContext → Rendering;
  (** [yaml.NewDecoder(pr).Decode(&podspec)] *)
  yaml_Decode_PodSpec : Decoder PodSpec;
  (** [srv.Executor.Start(podspec, executor.WithAnnotations(annotations))] *)
  Executor_Start : PodSpec → gmap string string → string * option error
}.

Section Service.

Context `{Imports}.

(** [type FileProvider func(path string) (io.ReadCloser, error)] *)
Definition FileProvider : Type := string → result ReadCloser.

(** What a call of [RunJob] does to the outside, in the order it does it. *)
Inductive effect : Type :=
| FetchFile (path : string)
| Spawn (t : tid)
| ExecutorStart (podspec : PodSpec) (annotations : gmap string string).

(** The named results [(name string, err error)] of [RunJob], with the
effects the call had. *)
Record outcome : Type := {
  name : string;
  err : option error;
  effects : list effect
}.

(** [xerrors.Errorf("cannot handle push to %s: %w", jc.String(), err)] *)
Definition cannot_handle_push (jc : JobContext) (err : error) : error :=
  wrapError ("cannot handle push to " +:+ JobContext_String jc) err.

(** The annotations [RunJob] hands to the executor. *)
Definition annotations_of (jc : JobContext) : gmap string string :=
  {[ "owner" := Owner jc; "repo" := Repo jc; "rev" := Revision jc ]}.

(** The two methods of [RepoConfig] that [RunJob] consults. *)
Record Evaluator : Type := {
  ev_ShouldRun : RepoConfig → JobTrigger → bool;
  ev_TemplatePath : RepoConfig → JobTrigger → string
}.

Definition RepoConfig_methods : Evaluator :=
  {| ev_ShouldRun := ShouldRun; ev_TemplatePath := TemplatePath |}.

(** The calls of [Executor.Start] among the effects of a call. *)
Definition starts (effs : list effect) : list (PodSpec * gmap string string) :=
  omap (λ eff, match eff with
               | ExecutorStart podspec annotations => Some (podspec, annotations)
               | _ => None
               end) effs.

(** The body of [RunJob], with the two methods of [RepoConfig] it calls
taken from [ev].  [sched] is the interleaving of the two goroutines; the
result is [None] when [wg.Wait()] has not returned by the end of it.
The parameter [ctx] is not used by the body and is left out. *)
Definition RunJob_with (ev : Evaluator) (sched : list tid) (jc : JobContext)
    (trigger : JobTrigger) (fp : FileProvider) : option outcome :=
  let fetched := [FetchFile ".keep.yaml"] in
  match fp ".keep.yaml" with
  | fail e => Some {| name := ""; err := Some (cannot_handle_push jc e); effects := fetched |}
  | ok keelYAML =>
  match yaml_Decode_RepoConfig keelYAML with
  | fail e => Some {| name := ""; err := Some (cannot_handle_push jc e); effects := fetched |}
  | ok repoCfg =>
  if negb (ev_ShouldRun ev repoCfg JobTriggerPush)
  then Some {| name := ""; err := None; effects := fetched |}
  else
  let tplpth := ev_TemplatePath ev repoCfg JobTriggerPush in
  let fetched := fetched ++ [FetchFile tplpth] in
  match fp tplpth with
  | fail e => Some {| name := ""; err := Some (cannot_handle_push jc e); effects := fetched |}
  | ok jobTplYAML =>
  match ioutil_ReadAll jobTplYAML with
  | fail e => Some {| name := ""; err := Some (cannot_handle_push jc e); effects := fetched |}
  | ok jobTplRaw =>
  match template_Parse (String.string_of_list_byte jobTplRaw) with
  | fail e => Some {| name := ""; err := Some (cannot_handle_push jc e); effects := fetched |}
  | ok jobTpl =>
  let spawned := fetched ++ [Spawn GoDecode; Spawn GoRender] in
  match compile sched PodSpec_zero yaml_Decode_PodSpec (template_Execute jobTpl jc) with
  | None => None
  | Some (podspec, Some e) =>
      Some {| name := ""; err := Some (cannot_handle_push jc e); effects := spawned |}
  | Some (podspec, None) =>
  let annotations := annotations_of jc in
  let started := spawned ++ [ExecutorStart podspec annotations] in
  match Executor_Start podspec annotations with
  | (_, Some e) => Some {| name := ""; err := Some (cannot_handle_push jc e); effects := started |}
  | (name, None) => Some {| name := name; err := None; effects := started |}
  end end end end end end end.

(** [func (srv *Service) RunJob(ctx, jc, trigger, fp) (name string, err error)] *)
Definition RunJob : list tid → JobContext → JobTrigger → FileProvider → option outcome :=
  RunJob_with RepoConfig_methods.

End Service.

End keel.

(** ** Package store *)

Module store.

(** [ErrNotFound] is returned by Read if something isn't found. *)
Definition ErrNotFound : error := errorString "not found".

(** [ErrAlreadyExists] is returned when attempting to place something
which already exists. *)
Definition ErrAlreadyExists : error := errorString "exists already".

Section Jobs.

(** [v1.JobStatus] and [v1.AnnotationFilter] are declared in the API
package, which is not among the sources.  The store needs the name of a
job and whether a job passes a filter. *)
Context {JobStatus AnnotationFilter : Type}.
Variable Name : JobStatus → string.
Variable satisfies : AnnotationFilter → JobStatus → bool.

(** Modelled from the spec: the sources declare [Jobs.Store] in an
interface and contain no implementation.  Upsert by name, full
overwrite, no partial merge. *)
Definition Jobs_Store (st : gmap string JobStatus) (job : JobStatus)
  : gmap string JobStatus * option error :=
  (<[Name job := job]> st, None).

(** Modelled from the spec: the sources declare [Jobs.Get] in an
interface and contain no implementation.  The record stored under the
name, [ErrNotFound] if the job is unknown. *)
Definition Jobs_Get (st : gmap string JobStatus) (name : string) : result JobStatus :=
  match st !! name with
  | Some job => ok job
  | None => fail ErrNotFound
  end.

(** The stored records, in the order of the store. *)
Definition records (st : gmap string JobStatus) : list JobStatus :=
  (map_to_list st).*2.

(** The full filtered result set: the filters are ANDed together. *)
Definition matching (flt : list AnnotationFilter) (st : gmap string JobStatus)
  : list JobStatus :=
  List.filter (λ job, forallb (λ f, satisfies f job) flt) (records st).

(** Modelled from the spec: the sources declare [Jobs.Find] in an
interface and contain no implementation.  [start] is an offset into the
full filtered result set, a [limit] of 0 means no limit, and [total] is
the size of the full filtered result set.  [start] and [limit] are Go
[int]s; the spec gives no meaning to negative ones, which count as 0
when they are turned into a number of records. *)
Definition Jobs_Find (st : gmap string JobStatus) (flt : list AnnotationFilter)
    (start limit : Z) : list JobStatus * Z * option error :=
  let all := matching flt st in
  let from := drop (Z.to_nat start) all in
  let page := if (limit =? 0)%Z then from else take (Z.to_nat limit) from in
  (page, Z.of_nat (length all), None).

End Jobs.

Section Logs.

(** What the log store holds under an id: a log that a [Place] call is
still writing, or a log that has been placed. *)
Inductive blob : Type :=
| Writing (received : list byte)
| Placed (content : list byte).

(** Modelled from the spec: the sources declare [Logs.Place] in an
interface and contain no implementation.  This is the start of a call
[Place(id, src)]: placing under an id that exists already is refused
with [ErrAlreadyExists], otherwise the log is opened for writing. *)
Definition Place_open (st : gmap string blob) (id : string)
  : gmap string blob * option error :=
  match st !! id with
  | Some _ => (st, Some ErrAlreadyExists)
  | None => (<[id := Writing []]> st, None)
  end.

(** Modelled from the spec: one chunk read from the source of a running
[Place(id, src)] is added to the log. *)
Definition Place_copy (st : gmap string blob) (id : string) (chunk : list byte)
  : gmap string blob :=
  match st !! id with
  | Some (Writing received) => <[id := Writing (received ++ chunk)]> st
  | _ => st
  end.

(** Modelled from the spec: the source of a running [Place(id, src)]
returned EOF, the log becomes readable and immutable. *)
Definition Place_close (st : gmap string blob) (id : string) : gmap string blob :=
  match st !! id with
  | Some (Writing received) => <[id := Placed received]> st
  | _ => st
  end.

(** The states of the store while it copies the chunks [src] still
delivers, before it sees EOF. *)
Fixpoint Place_copying (st : gmap string blob) (id : string) (src : list (list byte))
  : list (gmap string blob) :=
  st :: match src with
        | [] => []
        | chunk :: src' => Place_copying (Place_copy st id chunk) id src'
        end.

(** Modelled from the spec: the states of the store between the call of
[Logs.Place(id, src)] and its return, for a source that delivers the
chunks [src] and then EOF. *)
Definition Place_during (st : gmap string blob) (id : string) (src : list (list byte))
  : list (gmap string blob) :=
  match Place_open st id with
  | (_, Some _) => []
  | (st', None) => Place_copying st' id src
  end.

(** Modelled from the spec: the sources declare [Logs.Place] in an
interface and contain no implementation.  The call does not return
until the source returned EOF; this is the store and the error when it
returns. *)
Definition Logs_Place (st : gmap string blob) (id : string) (src : list (list byte))
  : gmap string blob * option error :=
  match Place_open st id with
  | (st', Some e) => (st', Some e)
  | (st', None) => (Place_close (foldl (λ s chunk, Place_copy s id chunk) st' src) id, None)
  end.

(** Modelled from the spec: the sources declare [Logs.Read] in an
interface and contain no implementation.  The bytes of the log placed
under [id]; [ErrNotFound] if there is none or if it is still being
written. *)
Definition Logs_Read (st : gmap string blob) (id : string) : result (list byte) :=
  match st !! id with
  | Some (Placed content) => ok content
  | _ => fail ErrNotFound
  end.

(** The steps the calls of [Place] are made of, for any id. *)
Inductive op : Type :=
| Open (id : string)
| Copy (id : string) (chunk : list byte)
| Close (id : string).

Definition apply_op (st : gmap string blob) (o : op) : gmap string blob :=
  match o with
  | Open id => (Place_open st id).1
  | Copy id chunk => Place_copy st id chunk
  | Close id => Place_close st id
  end.

End Logs.

End store.

(** ** Concrete collaborators

Small instances of what [RunJob] calls, to run the definitions on. *)

Module example.

Import keel store.

(** A job context. *)
Definition jc : JobContext :=
  {| Owner := "acme"; Repo := "widgets"; Revision := "refs/heads/main" |}.

(** Collaborators around a decoder [d] and a template engine [exec]: a
file holds its bytes, the configuration file holds the path of the
template, a template is its text, and the executor names every job
[job-1]. *)
Definition imports (d : Decoder (list byte)) (exec : list byte → JobContext → Rendering)
  : Imports :=
  {| JobTrigger := bool;
     JobTriggerPush := true;
     JobContext_String := λ jc, Owner jc +:+ "/" +:+ Repo jc +:+ "@" +:+ Revision jc;
     PodSpec := list byte;
     PodSpec_zero := [];
     ReadCloser := list byte;
     Template := list byte;
     yaml_Decode_RepoConfig := λ r, ok {| DefaultJob := String.string_of_list_byte r |};
     ioutil_ReadAll := λ r, ok r;
     template_Parse := λ text, ok (String.list_byte_of_string text);
     template_Execute := exec;
     yaml_Decode_PodSpec := d;
     Executor_Start := λ _ _, ("job-1", None) |}.

(** A decoder that takes what one read gives it. *)
Definition one_read : Decoder (list byte) :=
  DRead 512 (λ got, DReturn got None).

(** A decoder that rejects the document it has read. *)
Definition rejecting : Decoder (list byte) :=
  DRead 512 (λ got, DReturn got (Some (errorString "yaml: unmarshal errors"))).

(** A decoder that, having read the document, reads on for the end of
the stream. *)
Definition to_the_end : Decoder (list byte) :=
  DRead 512 (λ got, DRead 512 (λ _, DReturn got None)).

(** A template engine that writes the text of the template at once. *)
Definition verbatim (tpl : list byte) (jc : JobContext) : Rendering :=
  {| writes := [tpl]; rresult := None |}.

(** A repository with a configuration file naming [job.yaml]. *)
Definition repo : @FileProvider (imports one_read verbatim) :=
  λ path,
    if String.eqb path ".keep.yaml" then ok (String.list_byte_of_string "job.yaml")
    else if String.eqb path "job.yaml" then ok (String.list_byte_of_string "containers: []")
    else fail ErrNotFound.

(** A repository without any file. *)
Definition empty_repo : @FileProvider (imports one_read verbatim) :=
  λ path, fail ErrNotFound.

(** An evaluator that never runs anything. *)
Definition never : @Evaluator (imports one_read verbatim) :=
  {| ev_ShouldRun := λ _ _, false; ev_TemplatePath := λ rc _, DefaultJob rc |}.

(** Job records for the store: a name and a phase; a filter is the
phase it asks for. *)
Definition job (name : string) (phase : nat) : string * nat := (name, phase).

Definition in_phase (f : nat) (j : string * nat) : bool := Nat.eqb f j.2.

Definition two_jobs : gmap string (string * nat) :=
  {[ "job-1" := job "job-1" 1; "job-2" := job "job-2" 2 ]}.

(** The chunks of a log. *)
Definition log_src : list (list byte) :=
  [String.list_byte_of_string "hello "; String.list_byte_of_string "world"].

End example.

(** ** The template engine and the world *)

Module sprig.

Import keel.


Section Engine.

Context `{Imports}.



End Engine.

End sprig.

(** ** The handlers of the service *)

Module github.

(** What [processPushEvent] reads of a [github.PushEvent]:
[*event.Repo.Owner.Name], [*event.Repo.Name] and [*event.Ref].  The
package that declares these types is not among the sources; every link
of the three paths is a pointer there, and [None] is the nil pointer. *)
Record User : Type := {
  user_Name : option string
}.

Record PushEventRepository : Type := {
  repo_Owner : option User;
  repo_Name : option string
}.

Record PushEvent : Type := {
  event_Repo : option PushEventRepository;
  event_Ref : option string
}.

(** What [github.ParseWebHook] returns, by the cases of the type switch
of [handleGithubWebhook].  The handler does not look into a commit
comment or a create event; an event of any other type is kept as the
text [%+v] prints for it. *)
Inductive Event : Type :=
| CommitCommentEvent
| CreateEvent
| APushEvent (event : PushEvent)
| OtherEvent (rendering : string).

End github.

Module service.

Import keel.

Section Phases.

Context `{Imports}.

(** Where [RunJob] stands before it makes the pipe (line 138): it has
returned, or it holds the parsed job template; [done] is what it has
done so far. *)
Inductive front : Type :=
| Returned (r : outcome)
| Parsed (jobTpl : Template) (done : list effect).

(** Lines 106 to 136 of [RunJob]. *)
Definition RunJob_front (ev : Evaluator) (jc : JobContext) (fp : FileProvider) : front :=
  let fetched := [FetchFile ".keep.yaml"] in
  match fp ".keep.yaml" with
  | fail e => Returned {| name := ""; err := Some (cannot_handle_push jc e); effects := fetched |}
  | ok keelYAML =>
  match yaml_Decode_RepoConfig keelYAML with
  | fail e => Returned {| name := ""; err := Some (cannot_handle_push jc e); effects := fetched |}
  | ok repoCfg =>
  if negb (ev_ShouldRun ev repoCfg JobTriggerPush)
  then Returned {| name := ""; err := None; effects := fetched |}
  else
  let tplpth := ev_TemplatePath ev repoCfg JobTriggerPush in
  let fetched := fetched ++ [FetchFile tplpth] in
  match fp tplpth with
  | fail e => Returned {| name := ""; err := Some (cannot_handle_push jc e); effects := fetched |}
  | ok jobTplYAML =>
  match ioutil_ReadAll jobTplYAML with
  | fail e => Returned {| name := ""; err := Some (cannot_handle_push jc e); effects := fetched |}
  | ok jobTplRaw =>
  match template_Parse (String.string_of_list_byte jobTplRaw) with
  | fail e => Returned {| name := ""; err := Some (cannot_handle_push jc e); effects := fetched |}
  | ok jobTpl => Parsed jobTpl fetched
  end end end end end.

(** Lines 138 to 175 of [RunJob]. *)
Definition RunJob_back (sched : list tid) (jc : JobContext) (jobTpl : Template)
    (done : list effect) : option outcome :=
  let spawned := done ++ [Spawn GoDecode; Spawn GoRender] in
  match compile sched PodSpec_zero yaml_Decode_PodSpec (template_Execute jobTpl jc) with
  | None => None
  | Some (podspec, Some e) =>
      Some {| name := ""; err := Some (cannot_handle_push jc e); effects := spawned |}
  | Some (podspec, None) =>
  let annotations := annotations_of jc in
  let started := spawned ++ [ExecutorStart podspec annotations] in
  match Executor_Start podspec annotations with
  | (_, Some e) => Some {| name := ""; err := Some (cannot_handle_push jc e); effects := started |}
  | (name, None) => Some {| name := name; err := None; effects := started |}
  end end.

(** What a call of [RunJob] has done when it returns, or when it waits in
[wg.Wait()] at the end of the interleaving [sched]. *)
Definition RunJob_done (ev : Evaluator) (sched : list tid) (jc : JobContext)
    (fp : FileProvider) : list effect :=
  match RunJob_front ev jc fp with
  | Returned r => effects r
  | Parsed jobTpl done =>
      match RunJob_back sched jc jobTpl done with
      | Some r => effects r
      | None => done ++ [Spawn GoDecode; Spawn GoRender]
      end
  end.

End Phases.

(** The calls into go-github: [github.ValidatePayload(r, secret)],
[github.WebHookType(r)], [github.ParseWebHook(type, payload)] and
[Client.Repositories.DownloadContents(ctx, owner, repo, path,
&RepositoryContentGetOptions{Ref: ref})]. *)
Class GitHub `{Imports} : Type := {
  Request : Type;
  ValidatePayload : Request → list byte → result (list byte);
  WebHookType : Request → string;
  ParseWebHook : string → list byte → result github.Event;
  DownloadContents : string → string → string → string → result ReadCloser
}.

(** [GitHubSetup] sets up the access to GitHub; its [Client] is the
receiver of [DownloadContents]. *)
Record GitHubSetup : Type := {
  WebhookSecret : list byte
}.

(** How a call ends: it returns, it panics on a nil pointer, or it never
gets past [wg.Wait()] in [RunJob]; each time with what it has done till
then. *)
Inductive completion (A : Type) : Type :=
| Finished (a : A)
| Panicked (a : A)
| Blocked (a : A).
Global Arguments Finished {A} a.
Global Arguments Panicked {A} a.
Global Arguments Blocked {A} a.

Section Handlers.

Context `{GitHub}.

(** What a handler does to the outside: the downloads of the file
provider, the goroutines and the job [RunJob] starts, the calls of
[srv.OnError] and of [http.Error]. *)
Inductive report : Type :=
| Download (owner repo path ref : string)
| Spawned (t : tid)
| Started (podspec : PodSpec) (annotations : gmap string string)
| OnError (e : error)
| HttpError (msg : string) (code : Z).

(** The arguments of a call of [DownloadContents]. *)
Record download : Type := {
  dl_owner : string;
  dl_repo : string;
  dl_path : string;
  dl_ref : string
}.

(** The call of [DownloadContents] that the closure [fp] of
[processPushEvent] makes for [path]:
[DownloadContents(ctx, jc.Owner, jc.Repo, path, &...{Ref: jc.Revision})]. *)
Definition fp_call (jc : JobContext) (path : string) : download :=
  {| dl_owner := Owner jc; dl_repo := Repo jc; dl_path := path; dl_ref := Revision jc |}.

(** The effects of [RunJob] when a call of its file provider is the call
[call path] of [DownloadContents]. *)
Definition observe (call : string → download) (eff : effect) : report :=
  match eff with
  | FetchFile path =>
      Download (dl_owner (call path)) (dl_repo (call path))
               (dl_path (call path)) (dl_ref (call path))
  | Spawn t => Spawned t
  | ExecutorStart podspec annotations => Started podspec annotations
  end.

(** [func (srv *Service) processPushEvent(event *github.PushEvent)], for
a service whose [GitHub.Client] and [OnError] are set. *)
Definition processPushEvent (sched : list tid) (event : github.PushEvent)
  : completion (list report) :=
  match github.event_Repo event with
  | None => Panicked []
  | Some repo =>
  match github.repo_Owner repo with
  | None => Panicked []
  | Some owner =>
  match github.user_Name owner with
  | None => Panicked []
  | Some owner_name =>
  match github.repo_Name repo with
  | None => Panicked []
  | Some repo_name =>
  match github.event_Ref event with
  | None => Panicked []
  | Some ref =>
  let jc := {| Owner := owner_name; Repo := repo_name; Revision := ref |} in
  let call := fp_call jc in
  let fp := λ path,
    DownloadContents (dl_owner (call path)) (dl_repo (call path))
                     (dl_path (call path)) (dl_ref (call path)) in
  match RunJob sched jc JobTriggerPush fp with
  | None => Blocked (observe call <$> RunJob_done RepoConfig_methods sched jc fp)
  | Some r =>
      Finished ((observe call <$> effects r)
                ++ match err r with Some e => [OnError e] | None => [] end)
  end end end end end end.

(** The deferred function of [handleGithubWebhook], run on [*err] when
the handler returns. *)
Definition deferred (err : option error) : list report :=
  match err with
  | None => []
  | Some e => [OnError e; HttpError (Error e) 500]
  end.

(** [func (srv *Service) handleGithubWebhook(w http.ResponseWriter, r *http.Request)],
for a service whose [OnError] is set.  When [processPushEvent] panics the
deferred function runs on a nil [*err] and does nothing. *)
Definition handleGithubWebhook (gh : GitHubSetup) (sched : list tid) (r : Request)
  : completion (list report) :=
  match ValidatePayload r (WebhookSecret gh) with
  | fail e => Finished (deferred (Some e))
  | ok payload =>
  match ParseWebHook (WebHookType r) payload with
  | fail e => Finished (deferred (Some e))
  | ok event =>
  match event with
  | github.CommitCommentEvent => Finished (deferred None)
  | github.CreateEvent => Finished (deferred None)
  | github.APushEvent event =>
      match processPushEvent sched event with
      | Finished done => Finished (done ++ deferred None)
      | Panicked done => Panicked (done ++ deferred None)
      | Blocked done => Blocked done
      end
  | github.OtherEvent rendering =>
      Finished (deferred (Some (errorString ("unhandled GitHub event: " +:+ rendering))))
  end end end.

(** The paths a call of [RunJob] asked its file provider for. *)
Definition fetched (effs : list effect) : list string :=
  omap (λ eff, match eff with FetchFile path => Some path | _ => None end) effs.

(** Whether a report is an answer written by [http.Error]. *)
Definition is_HttpError (rep : report) : bool :=
  match rep with HttpError _ _ => true | _ => false end.

(** Whether a report is a call of [srv.OnError]. *)
Definition is_OnError (rep : report) : bool :=
  match rep with OnError _ => true | _ => false end.

End Handlers.

Section API.

(** [v1.JobStatus], [v1.AnnotationFilter], [v1.ListJobsRequest] and
[v1.ListJobsResponse] are declared in the API package, which is not
among the sources.  [Start] and [Limit] are 32-bit integers there, which
[int(...)] widens without changing them; [Result] is a slice of
pointers, [None] the nil pointer and [Some job] a pointer to a record
[job] of the slice [Find] returned. *)
Context {JobStatus AnnotationFilter : Type}.

Record ListJobsRequest : Type := {
  Filter : list AnnotationFilter;
  Start : Z;
  Limit : Z
}.

Record ListJobsResponse : Type := {
  Total : Z;
  Result : list (option JobStatus)
}.

(** The gRPC codes the service uses. *)
Inductive codes : Type := Internal | Unimplemented.

(** What an RPC method returns: its response, or the error
[status.Error(code, msg)]. *)
Inductive rpc (A : Type) : Type :=
| Reply (a : A)
| Status (code : codes) (msg : string).
Global Arguments Reply {A} a.
Global Arguments Status {A} code msg.

(** The conversion [int32(total)] of an [int]: the low 32 bits, read as
a signed number. *)
Definition int32 (z : Z) : Z := ((z + 2 ^ 31) `mod` 2 ^ 32 - 2 ^ 31)%Z.

(** [res[i] = &result[i]]; [None] is the panic of an index out of
range. *)
Definition point_at (result : list JobStatus) (res : list (option JobStatus)) (i : nat)
  : option (list (option JobStatus)) :=
  match result !! i with
  | None => None
  | Some job => if decide (i < length res) then Some (<[i := Some job]> res) else None
  end.

(** [for i := range result { res[i] = &result[i] }] over the indices
[todo] still to go. *)
Fixpoint point_all (result : list JobStatus) (todo : list nat) (res : list (option JobStatus))
  : option (list (option JobStatus)) :=
  match todo with
  | [] => Some res
  | i :: todo' =>
      match point_at result res i with
      | None => None
      | Some res' => point_all result todo' res'
      end
  end.

(** [func (srv *Service) ListJobs(ctx, req) (resp *v1.ListJobsResponse, err error)],
for a request and a job store that are not nil, with [srv.Jobs.Find] as
[Find]; [None] is the panic of an index out of range in the loop. *)
Definition ListJobs
    (Find : list AnnotationFilter → Z → Z → list JobStatus * Z * option error)
    (req : ListJobsRequest) : option (rpc ListJobsResponse) :=
  match Find (Filter req) (Start req) (Limit req) with
  | (_, _, Some err) => Some (Status Internal (Error err))
  | (result, total, None) =>
      match point_all result (seq 0 (length result)) (replicate (length result) None) with
      | None => None
      | Some res => Some (Reply {| Total := int32 total; Result := res |})
      end
  end.

End API.

Section Origins.

Context {PodSpec : Type}.


End Origins.

End service.

(** ** Concrete requests

Small instances of what the handlers call. *)

Module example_service.

Import keel store service.

(** GitHub as seen by the handlers: the payload of a request is its
body when the secret is empty, every payload parses to [event], and a
download is a fetch from [files]. *)
Definition github_of (event : github.Event)
    (files : @FileProvider (example.imports example.one_read example.verbatim))
  : @GitHub (example.imports example.one_read example.verbatim) :=
  {| Request := list byte;
     ValidatePayload := λ r secret,
       match secret with
       | [] => ok r
       | _ => fail (errorString "missing signature")
       end;
     WebHookType := λ _, "push";
     ParseWebHook := λ _ _, ok event;
     DownloadContents := λ owner repo path ref, files path |}.

(** A push to [refs/heads/main] of [acme/widgets]. *)
Definition push : github.PushEvent :=
  {| github.event_Repo :=
       Some {| github.repo_Owner := Some {| github.user_Name := Some "acme" |};
               github.repo_Name := Some "widgets" |};
     github.event_Ref := Some "refs/heads/main" |}.

(** A push event without a ref. *)
Definition push_without_ref : github.PushEvent :=
  {| github.event_Repo := github.event_Repo push; github.event_Ref := None |}.

(** A job store in front of [store.Jobs_Find] over [example.two_jobs]. *)
Definition find (flt : list nat) (start limit : Z)
  : list (string * nat) * Z * option error :=
  Jobs_Find example.in_phase example.two_jobs flt start limit.

(** A job store that is out of order. *)
Definition broken_find (flt : list nat) (start limit : Z)
  : list (string * nat) * Z * option error :=
  ([], 0%Z, Some (errorString "store unavailable")).


(** A decoder that reads twice, two bytes at a time, and keeps what it
got. *)
Definition by_two : Decoder (list byte) :=
  DRead 2 (λ first, DRead 2 (λ second, DReturn (first ++ second) None)).


End example_service.

(** * Properties *)

Import keel store.

(** ** The two goroutines of [RunJob] *)

Section CompileFacts.

Context {PodSpec : Type}.
Implicit Types (st : @compile_state PodSpec) (d : Decoder PodSpec).
Implicit Types (sched : list tid) (ws : list (list byte)).

(** A read takes the front of the pending write and leaves the rest of
it pending: no byte is lost and none comes twice. *)
Lemma after_read_keeps (n : nat) (b : list byte) ws :
  take n b ++ concat (after_read n b ws) = b ++ concat ws.
Proof.
  unfold after_read. pose proof (take_drop n b) as Hsplit.
  destruct (drop n b) as [|c rest].
  - rewrite app_nil_r in Hsplit. by rewrite Hsplit.
  - change (concat ((c :: rest) :: ws)) with ((c :: rest) ++ concat ws).
    by rewrite app_assoc, Hsplit.
Qed.

Lemma run_app sched1 sched2 st :
  run (sched1 ++ sched2) st = run sched2 (run sched1 st).
Proof. revert st. induction sched1 as [|t sched1 IH]; intros st; cbn; [done | apply IH]. Qed.

(** No step changes what the decoder will leave in [podspec]. *)
Lemma fate_step t st : fate (step t st) = fate st.
Proof.
  destruct st as [[[n k|spec terr]|terr|] [[|b ws] rterr|rterr|rterr|] [e|] p], t;
    cbn; done.
Qed.

Lemma fate_run sched st : fate (run sched st) = fate st.
Proof.
  revert st. induction sched as [|t sched IH]; intros st; cbn; [done|].
  by rewrite IH, fate_step.
Qed.

Lemma fate_joined st : joined st = true → fate st = Some (st_podspec st).
Proof. destruct st as [[d| |] rpc e p]; cbn; done. Qed.

(** No step changes whether both goroutines can finish. *)
Lemma can_finish_step t st : can_finish (step t st) = can_finish st.
Proof.
  destruct st as [[[n k|spec terr]|terr|] [[|b ws] rterr|rterr|rterr|] [e|] p], t;
    cbn; done.
Qed.

Lemma can_finish_run sched st : can_finish (run sched st) = can_finish st.
Proof.
  revert st. induction sched as [|t sched IH]; intros st; cbn; [done|].
  by rewrite IH, can_finish_step.
Qed.

Lemma can_finish_joined st : joined st = true → can_finish st = true.
Proof. destruct st as [[d| |] [ws terr| | |] e p]; cbn; done. Qed.

(** Goroutines that cannot both finish never get past [wg.Wait()]. *)
Lemma blocked_forever sched st : can_finish st = false → joined (run sched st) = false.
Proof.
  intros Hno. destruct (joined (run sched st)) eqn:Hj; [|done].
  apply can_finish_joined in Hj. rewrite can_finish_run in Hj. congruence.
Qed.

(** The decoding goroutine alone, run until it is done, when the decoder
returns on the last of the pending writes. *)
Lemma decode_to_done d : ∀ ws rterr e p spec terr,
  feed d ws = Some (spec, terr, []) →
  run (replicate (reads_of d ws + 2) GoDecode)
      {| st_decode := DecodeRunning d; st_render := RenderRunning ws rterr;
         st_err := e; st_podspec := p |}
  = {| st_decode := DecodeDone; st_render := RenderRunning [] rterr;
       st_err := match terr with Some _ => terr | None => e end;
       st_podspec := spec |}.
Proof.
  induction d as [n k IH|spec' terr']; intros ws rterr e p spec terr Hfeed.
  - destruct ws as [|b ws]; [done|]. cbn in Hfeed. cbn.
    apply (IH _ _ rterr e p) in Hfeed. exact Hfeed.
  - cbn in Hfeed. injection Hfeed as -> -> ->. done.
Qed.

(** The interleaving [decode_first] gets past [wg.Wait()]. *)
Lemma decode_first_joins (zero : PodSpec) d r spec terr :
  feed d (writes r) = Some (spec, terr, []) →
  compile (decode_first (reads_of d (writes r))) zero d r
  = Some (spec, match terr with Some _ => rresult r | None => None end).
Proof.
  intros Hfeed. unfold compile, decode_first, spawn.
  rewrite run_app, (decode_to_done _ _ _ _ _ _ _ Hfeed).
  destruct terr; done.
Qed.

(** As long as the decoder does not fail, [err] stays nil and the
rendering goroutine never gets to its assignment. *)
Lemma quiet_step t st : quiet st → quiet (step t st).
Proof.
  unfold quiet, decode_error.
  destruct st as [[[n k|spec terr]|terr|] [[|b ws] rterr|rterr|rterr|] [e|] p], t;
    cbn; intros (He & Hd & Hr); try done; try (by destruct (Hr rterr));
    repeat split; try done;
    try (intros terr' Heq; by apply Hd);
    try (by rewrite (Hd terr eq_refl)).
Qed.

Lemma quiet_run sched st : quiet st → quiet (run sched st).
Proof.
  revert st. induction sched as [|t sched IH]; intros st Hq; cbn; [done|].
  by apply IH, quiet_step.
Qed.

(** What [compile] returns, if it returns: the pod specification is the
one the decoder is bound to leave. *)
Lemma compile_podspec sched (zero : PodSpec) d r out :
  compile sched zero d r = Some out →
  ∃ terr, feed d (writes r) = Some (out.1, terr, []).
Proof.
  unfold compile. destruct (joined _) eqn:Hj; [|done]. intros [= <-].
  pose proof (fate_joined _ Hj) as Hf. rewrite fate_run in Hf.
  pose proof (can_finish_joined _ Hj) as Hc. rewrite can_finish_run in Hc.
  unfold fate, can_finish, spawn, pending in Hf, Hc. cbn in Hf, Hc. cbn.
  destruct (feed d (writes r)) as [[[spec terr] [|b ws]]|]; try done.
  cbn in Hf. injection Hf as ->. by exists terr.
Qed.

(** A decoder that returns a nil error makes [compile] return one. *)
Lemma compile_decode_ok sched (zero : PodSpec) d r spec rest out :
  feed d (writes r) = Some (spec, None, rest) →
  compile sched zero d r = Some out → out = (spec, None).
Proof.
  intros Hfeed Hc. destruct (compile_podspec _ _ _ _ _ Hc) as [terr Hfeed'].
  unfold compile in Hc. destruct (joined _); [|done]. injection Hc as <-.
  rewrite Hfeed in Hfeed'. injection Hfeed' as -> <- ->. cbn. f_equal.
  assert (quiet (spawn zero d r)) as Hq.
  { unfold quiet, spawn, decode_error, pending; cbn. rewrite Hfeed; cbn.
    repeat split; [|done]. by intros terr [= <-]. }
  by destruct (quiet_run sched _ Hq) as (-> & _).
Qed.

(** X12. [wg.Wait()] returns under some interleaving exactly when the
decoder returns on the last write of the rendering: it returns under
none when the decoder asks for bytes after the last write, and under
none when the decoder returns while a write, or a part of one, is left. *)
Lemma compile_returns_iff (zero : PodSpec) d r :
  (∃ sched out, compile sched zero d r = Some out)
  ↔ ∃ spec terr, feed d (writes r) = Some (spec, terr, []).
Proof.
  split.
  - intros (sched & out & Hc). apply compile_podspec in Hc as [terr Hfeed]. eauto.
  - intros (spec & terr & Hfeed). eexists _, _. by apply decode_first_joins.
Qed.

End CompileFacts.

(** ** Races and blocking of the two goroutines *)

Section CompileProperties.

Context {PodSpec : Type}.

(** C1. The claim is that the first failure of the render and decode
tasks wins and is never replaced by a later failure or by a nil result
of the other side.  The goroutines of [RunJob] do not behave so.  With a
decoder failing with [e_d] and a rendering without failure, [err] is nil
at [wg.Wait()] when the decoding goroutine runs first (the rendering
goroutine then finds [err] set and stores its own nil result) and is
[e_d] when the rendering goroutine runs first.  When both fail, the
failure of the rendering replaces the earlier one of the decoder.  A
failure [e_r] of the rendering next to a decoder without failure is
reported under no interleaving at all.  At the level of [RunJob], the
same repository gets a job started from a rejected document under one
interleaving and an error under another. *)
Theorem compile_error_race (zero spec : PodSpec) (e_d e_r : error) :
  compile [GoDecode; GoDecode; GoRender; GoRender; GoRender] zero
          (DReturn spec (Some e_d)) {| writes := []; rresult := None |}
  = Some (spec, None)
  ∧ compile [GoRender; GoRender; GoDecode; GoDecode] zero
            (DReturn spec (Some e_d)) {| writes := []; rresult := None |}
    = Some (spec, Some e_d)
  ∧ compile [GoDecode; GoDecode; GoRender; GoRender; GoRender] zero
            (DReturn spec (Some e_d)) {| writes := []; rresult := Some e_r |}
    = Some (spec, Some e_r)
  ∧ (∀ sched,
       compile sched zero (DReturn spec None) {| writes := []; rresult := Some e_r |} = None
       ∨ compile sched zero (DReturn spec None) {| writes := []; rresult := Some e_r |}
         = Some (spec, None))
  ∧ compile [GoDecode; GoDecode; GoRender; GoRender] zero
            (DReturn spec None) {| writes := []; rresult := Some e_r |}
    = Some (spec, None)
  ∧ (let srv := example.imports example.rejecting example.verbatim in
     name <$> @RunJob srv [GoDecode; GoDecode; GoDecode; GoRender; GoRender; GoRender]
                      example.jc true example.repo
     = Some "job-1"
     ∧ err <$> @RunJob srv [GoDecode; GoDecode; GoDecode; GoRender; GoRender; GoRender]
                       example.jc true example.repo
       = Some None
     ∧ err <$> @RunJob srv [GoDecode; GoDecode; GoRender; GoRender; GoDecode]
                       example.jc true example.repo
       = Some (Some (wrapError "cannot handle push to acme/widgets@refs/heads/main"
                               (errorString "yaml: unmarshal errors")))).
Proof.
  repeat split; try reflexivity.
  intros sched.
  destruct (compile sched zero (DReturn spec None) _) as [out|] eqn:Hc; [right|by left].
  f_equal. by eapply (compile_decode_ok _ _ _ _ spec []), Hc.
Qed.

(** C2. The claim is that the two goroutines always terminate and that
[RunJob] never blocks at the join.  [RunJob] closes neither end of the
pipe.  When the rendering is over (with or without failure) while the
decoder waits in a read, the decoder waits for ever; when the decoder
has returned (with or without failure) while a write is pending, the
write waits for ever; in both cases no interleaving gets past
[wg.Wait()].  For a decoder that reads on for the end of the stream
after the document, [RunJob] returns under no interleaving. *)
Theorem compile_deadlock (zero : PodSpec) (sched : list tid) :
  (∀ n k rterr,
     compile sched zero (DRead n k) {| writes := []; rresult := rterr |} = None)
  ∧ (∀ spec terr b ws rterr,
       compile sched zero (DReturn spec terr) {| writes := b :: ws; rresult := rterr |}
       = None)
  ∧ @RunJob (example.imports example.to_the_end example.verbatim)
            sched example.jc true example.repo = None.
Proof.
  split; [|split].
  - intros n k rterr. unfold compile. by rewrite blocked_forever.
  - intros spec terr b ws rterr. unfold compile. by rewrite blocked_forever.
  - unfold RunJob, RunJob_with. cbn.
    unfold compile. by rewrite blocked_forever.
Qed.


End CompileProperties.

(** ** [RunJob] and the trigger evaluator *)

Section ServiceProperties.

Context `{Imports}.

(** Every error [RunJob_with] returns is made by [cannot_handle_push]. *)
Lemma RunJob_with_err ev sched (jc : JobContext) trigger (fp : FileProvider) r e :
  RunJob_with ev sched jc trigger fp = Some r →
  err r = Some e →
  ∃ cause, e = cannot_handle_push jc cause.
Proof.
  unfold RunJob_with. intros Hr He.
  repeat case_match; simplify_eq; cbn in He; simplify_eq; eauto.
Qed.

(** C3. Every error [RunJob] returns wraps its cause behind the
descriptor of the job context: it is the value
[xerrors.Errorf("cannot handle push to %s: %w", jc.String(), cause)] for
some [cause], which [Unwrap] gives back, and its message is made of the
descriptor and of the message of the cause. *)
Theorem RunJob_error_wrapped sched (jc : JobContext) trigger (fp : FileProvider) r e :
  RunJob sched jc trigger fp = Some r →
  err r = Some e →
  ∃ cause,
    e = wrapError ("cannot handle push to " +:+ JobContext_String jc) cause
    ∧ Unwrap e = Some cause
    ∧ Error e = "cannot handle push to " +:+ JobContext_String jc +:+ ": " +:+ Error cause.
Proof.
  intros Hr He. destruct (RunJob_with_err _ _ _ _ _ _ _ Hr He) as [cause ->].
  exists cause. by repeat split.
Qed.

(** C8. [ShouldRun] is true and [TemplatePath] is the configured default
job, for every configuration and every trigger; neither depends on the
trigger. *)
Theorem evaluator_always_runs (rc : RepoConfig) (trigger trigger' : JobTrigger) :
  ShouldRun rc trigger = true
  ∧ TemplatePath rc trigger = DefaultJob rc
  ∧ ShouldRun rc trigger = ShouldRun rc trigger'
  ∧ TemplatePath rc trigger = TemplatePath rc trigger'.
Proof. done. Qed.

(** C9. When [RunJob] returns without error, it has called
[Executor.Start] once, with the annotations [owner], [repo] and [rev]
set to the owner, the repository and the revision of the job context and
no other annotation, and the name it returns is the one that call
returned. *)
Theorem RunJob_submission sched (jc : JobContext) trigger (fp : FileProvider) r :
  RunJob sched jc trigger fp = Some r →
  err r = None →
  ∃ podspec annotations,
    starts (effects r) = [(podspec, annotations)]
    ∧ Executor_Start podspec annotations = (name r, None)
    ∧ annotations = {[ "owner" := Owner jc; "repo" := Repo jc; "rev" := Revision jc ]}
    ∧ dom annotations = {[ "owner"; "repo"; "rev" ]}
    ∧ annotations !! "owner" = Some (Owner jc)
    ∧ annotations !! "repo" = Some (Repo jc)
    ∧ annotations !! "rev" = Some (Revision jc).
Proof.
  unfold RunJob, RunJob_with. cbn. intros Hr He.
  repeat case_match; simplify_eq; cbn in He; simplify_eq.
  eexists _, _. split.
  { reflexivity. }
  split; [eassumption|]. split; [reflexivity|].
  unfold annotations_of. split; [|done].
  rewrite !dom_insert_L, dom_singleton_L. set_solver.
Qed.

(** C10. When the evaluator declines, [RunJob] returns the empty name and
a nil error, and the configuration file is the only thing it has
fetched: no template is fetched, no goroutine is spawned and
[Executor.Start] is not called. *)
Theorem RunJob_declined ev sched (jc : JobContext) trigger (fp : FileProvider)
    keelYAML repoCfg :
  fp ".keep.yaml" = ok keelYAML →
  yaml_Decode_RepoConfig keelYAML = ok repoCfg →
  ev_ShouldRun ev repoCfg JobTriggerPush = false →
  RunJob_with ev sched jc trigger fp
  = Some {| name := ""; err := None; effects := [FetchFile ".keep.yaml"] |}.
Proof.
  intros Hfp Hcfg Hno. unfold RunJob_with. by rewrite Hfp, Hcfg, Hno.
Qed.

End ServiceProperties.

Lemma RunJob_error_wrapped_witness :
  ∃ r e cause,
    @RunJob (example.imports example.one_read example.verbatim)
            [] example.jc true example.empty_repo = Some r
    ∧ err r = Some e
    ∧ e = wrapError "cannot handle push to acme/widgets@refs/heads/main" cause
    ∧ Unwrap e = Some cause
    ∧ Error e = "cannot handle push to acme/widgets@refs/heads/main: not found".
Proof.
  eexists _, _. 
  destruct (@RunJob_error_wrapped (example.imports example.one_read example.verbatim)
              [] example.jc true example.empty_repo _ _ eq_refl eq_refl)
    as (cause & He & Hu & Hm).
  exists cause. split; [reflexivity|]. split; [reflexivity|].
  split; [exact He|]. split; [exact Hu|].
  injection He as <-. reflexivity.
Defined.

Lemma RunJob_submission_witness :
  ∃ r podspec annotations,
    @RunJob (example.imports example.one_read example.verbatim)
            (decode_first 1) example.jc true example.repo = Some r
    ∧ err r = None
    ∧ name r = "job-1"
    ∧ starts (effects r) = [(podspec, annotations)]
    ∧ annotations !! "owner" = Some "acme"
    ∧ annotations !! "repo" = Some "widgets"
    ∧ annotations !! "rev" = Some "refs/heads/main".
Proof.
  eexists _.
  destruct (@RunJob_submission (example.imports example.one_read example.verbatim)
              (decode_first 1) example.jc true example.repo _ eq_refl eq_refl)
    as (podspec & annotations & Hs & _ & _ & _ & Ho & Hr & Hv).
  exists podspec, annotations.
  split; [reflexivity|]. split; [reflexivity|]. split; [reflexivity|].
  split; [exact Hs|]. split; [exact Ho|]. split; [exact Hr|exact Hv].
Defined.

Lemma RunJob_declined_witness :
  @RunJob_with (example.imports example.one_read example.verbatim) example.never
               [] example.jc true example.repo
  = Some {| name := ""; err := None; effects := [FetchFile ".keep.yaml"] |}.
Proof.
  apply (@RunJob_declined (example.imports example.one_read example.verbatim)
           example.never [] example.jc true example.repo
           (String.list_byte_of_string "job.yaml") {| DefaultJob := "job.yaml" |});
    reflexivity.
Defined.

(** ** The stores *)

Section JobsProperties.

Context {JobStatus AnnotationFilter : Type}.
Variable Name : JobStatus → string.
Variable satisfies : AnnotationFilter → JobStatus → bool.
Implicit Types (st : gmap string JobStatus) (job : JobStatus).

(** C4. Storing two records of the same name one after the other leaves
[Get] with the second record and the store as if the first had never
been stored; storing a record twice leaves the store as storing it
once.  No call fails. *)
Theorem Jobs_Store_upsert st job1 job2 :
  Name job1 = Name job2 →
  let st1 := (Jobs_Store Name st job1).1 in
  let st2 := (Jobs_Store Name st1 job2).1 in
  Jobs_Get st2 (Name job1) = ok job2
  ∧ st2 = (Jobs_Store Name st job2).1
  ∧ (Jobs_Store Name st1 job1).1 = st1
  ∧ (Jobs_Store Name st job1).2 = None
  ∧ (Jobs_Store Name st1 job2).2 = None.
Proof.
  intros Hname. cbn. unfold Jobs_Get. rewrite Hname.
  rewrite lookup_insert_eq, !insert_insert_eq. done.
Qed.

(** Without filters the filtered result set is the whole store. *)
Lemma matching_nil st : matching satisfies [] st = records st.
Proof.
  unfold matching. cbn. induction (records st) as [|j l IH]; cbn; [done|by rewrite IH].
Qed.

Lemma length_records st : length (records st) = size st.
Proof. unfold records. by rewrite length_fmap, length_map_to_list. Qed.

(** C5. [Find] without filters filters nothing; its total is the size of
the full filtered result set whatever [start] and [limit] are; with a
limit of 0 the page is the filtered result set from [start] on; with a
limit [k > 0] the page has at most [k] records, the records found at
[start], [start + 1], ... in the filtered result set. *)
Theorem Jobs_Find_page st (flt : list AnnotationFilter) (start limit : Z) :
  let all := matching satisfies flt st in
  let page := (Jobs_Find satisfies st flt start limit).1.1 in
  let total := (Jobs_Find satisfies st flt start limit).1.2 in
  matching satisfies [] st = records st
  ∧ (Jobs_Find satisfies st [] 0%Z 0%Z).1 = (records st, Z.of_nat (size st))
  ∧ total = Z.of_nat (length all)
  ∧ (∀ start' limit', (Jobs_Find satisfies st flt start' limit').1.2 = total)
  ∧ (limit = 0 → page = drop (Z.to_nat start) all)%Z
  ∧ (0 < limit →
       Z.of_nat (length page) ≤ limit
       ∧ ∀ i : nat, Z.of_nat i < limit → page !! i = all !! (Z.to_nat start + i)%nat)%Z
  ∧ (Jobs_Find satisfies st flt start limit).2 = None.
Proof.
  cbn. repeat split.
  - apply matching_nil.
  - by rewrite matching_nil, length_records.
  - intros ->. done.
  - destruct (Z.eqb_spec limit 0) as [->|_]; [lia|].
    rewrite length_take. lia.
  - intros i Hi. destruct (Z.eqb_spec limit 0) as [->|_]; [lia|].
    rewrite lookup_take_lt by lia. by rewrite lookup_drop.
Qed.

End JobsProperties.

Lemma Jobs_Store_upsert_witness :
  Jobs_Get (Jobs_Store fst (Jobs_Store fst example.two_jobs (example.job "job-1" 3)).1
                       (example.job "job-1" 4)).1 "job-1"
  = ok (example.job "job-1" 4).
Proof.
  apply (Jobs_Store_upsert fst example.two_jobs
           (example.job "job-1" 3) (example.job "job-1" 4)).
  reflexivity.
Defined.

Lemma Jobs_Find_page_witness :
  (Z.of_nat (length (Jobs_Find example.in_phase example.two_jobs [] 1 1).1.1) ≤ 1)%Z
  ∧ (Jobs_Find example.in_phase example.two_jobs [] 1 1).1.1 !! 0
    = matching example.in_phase [] example.two_jobs !! 1
  ∧ (Jobs_Find example.in_phase example.two_jobs [2] 1 0).1.1
    = drop 1 (matching example.in_phase [2] example.two_jobs).
Proof.
  destruct (Jobs_Find_page example.in_phase example.two_jobs [] 1 1)
    as (_ & _ & _ & _ & _ & Hk & _).
  destruct (Jobs_Find_page example.in_phase example.two_jobs [2] 1 0)
    as (_ & _ & _ & _ & H0 & _).
  destruct Hk as [Hlen Hi]; [lia|].
  split; [exact Hlen|]. split; [apply (Hi 0%nat); lia|]. apply H0. reflexivity.
Defined.

Section LogsProperties.

Implicit Types (st : gmap string blob) (id : string) (src : list (list byte)).

Lemma Place_copy_writing st id received chunk :
  st !! id = Some (Writing received) →
  Place_copy st id chunk !! id = Some (Writing (received ++ chunk)).
Proof. intros Hst. unfold Place_copy. rewrite Hst. apply lookup_insert_eq. Qed.

(** While the chunks are copied the log stays one that is being written. *)
Lemma Place_copying_writing src : ∀ st id received s,
  st !! id = Some (Writing received) →
  s ∈ Place_copying st id src →
  ∃ received', s !! id = Some (Writing received').
Proof.
  induction src as [|chunk src IH]; intros st id received s Hst Hs; cbn in Hs.
  - apply list_elem_of_singleton in Hs as ->. eauto.
  - apply elem_of_cons in Hs as [->|Hs]; [eauto|].
    eapply IH, Hs. by apply Place_copy_writing.
Qed.

Lemma length_Place_copying src : ∀ st id, length (Place_copying st id src) = S (length src).
Proof. induction src as [|chunk src IH]; intros st id; cbn; [done|by rewrite IH]. Qed.

(** When the source is drained the log holds the chunks in order. *)
Lemma Place_copy_all src : ∀ st id received,
  st !! id = Some (Writing received) →
  foldl (λ s chunk, Place_copy s id chunk) st src !! id
  = Some (Writing (received ++ concat src)).
Proof.
  induction src as [|chunk src IH]; intros st id received Hst; cbn.
  - by rewrite app_nil_r.
  - rewrite (IH _ _ (received ++ chunk)) by by apply Place_copy_writing.
    by rewrite <- app_assoc.
Qed.

(** A log that has been placed is not touched by any later step of any
call of [Place]. *)
Lemma placed_stable (ops : list op) : ∀ st id content,
  st !! id = Some (Placed content) →
  foldl apply_op st ops !! id = Some (Placed content).
Proof.
  induction ops as [|o ops IH]; intros st id content Hst; cbn; [done|].
  apply IH. destruct o as [id'|id' chunk|id']; cbn;
    unfold Place_open, Place_copy, Place_close.
  - destruct (st !! id') eqn:Hid'; cbn; [done|].
    rewrite lookup_insert_ne; [done|congruence].
  - destruct (st !! id') as [[received|c]|] eqn:Hid'; try done.
    rewrite lookup_insert_ne; [done|congruence].
  - destruct (st !! id') as [[received|c]|] eqn:Hid'; try done.
    rewrite lookup_insert_ne; [done|congruence].
Qed.

(** C6. [Read] fails, and then with [ErrNotFound], exactly when the store
holds nothing under the id or holds a log that is still being written.
For an id the store holds nothing under: [Read] is [ErrNotFound] before
the call of [Place] and in every state of the store between the call
and its return; the call returns without error, and from then on, also
after later steps of other calls, [Read] yields the bytes of the source
in order. *)
Theorem Logs_Read_Place st id src :
  st !! id = None →
  (∀ s id' e, Logs_Read s id' = fail e ↔
      e = ErrNotFound
      ∧ (s !! id' = None ∨ ∃ received, s !! id' = Some (Writing received)))
  ∧ Logs_Read st id = fail ErrNotFound
  ∧ length (Place_during st id src) = S (length src)
  ∧ (∀ s, s ∈ Place_during st id src → Logs_Read s id = fail ErrNotFound)
  ∧ ∃ st', Logs_Place st id src = (st', None)
           ∧ Logs_Read st' id = ok (concat src)
           ∧ ∀ ops, Logs_Read (foldl apply_op st' ops) id = ok (concat src).
Proof.
  intros Hfresh. split; [|split; [|split; [|split]]].
  - intros s id' e. unfold Logs_Read. split.
    + destruct (s !! id') as [[received|content]|]; [|done|]; intros [= <-]; eauto.
    + intros [-> [->|[received ->]]]; done.
  - unfold Logs_Read. by rewrite Hfresh.
  - unfold Place_during, Place_open. rewrite Hfresh. apply length_Place_copying.
  - intros s. unfold Place_during, Place_open. rewrite Hfresh. intros Hs.
    eapply (Place_copying_writing _ _ id []) in Hs as [received Hs];
      [|apply lookup_insert_eq].
    unfold Logs_Read. by rewrite Hs.
  - unfold Logs_Place, Place_open. rewrite Hfresh. eexists. split; [done|].
    assert (Place_close (foldl (λ s chunk, Place_copy s id chunk)
                               (<[id:=Writing []]> st) src) id !! id
            = Some (Placed (concat src))) as Hplaced.
    { unfold Place_close.
      rewrite (Place_copy_all src _ id []) by apply lookup_insert_eq.
      apply lookup_insert_eq. }
    split.
    + unfold Logs_Read. by rewrite Hplaced.
    + intros ops. unfold Logs_Read. by rewrite (placed_stable ops _ _ _ Hplaced).
Qed.

End LogsProperties.

Lemma Logs_Read_Place_witness :
  Logs_Read ∅ "job-1" = fail ErrNotFound
  ∧ (∀ s, s ∈ Place_during ∅ "job-1" example.log_src → Logs_Read s "job-1" = fail ErrNotFound)
  ∧ ∃ st', Logs_Place ∅ "job-1" example.log_src = (st', None)
           ∧ Logs_Read st' "job-1" = ok (String.list_byte_of_string "hello world").
Proof.
  destruct (Logs_Read_Place ∅ "job-1" example.log_src)
    as (_ & Hbefore & _ & Hduring & st' & Hplace & Hread & _);
    [reflexivity|].
  split; [exact Hbefore|]. split; [exact Hduring|].
  exists st'. split; [exact Hplace|exact Hread].
Defined.

(** ** More on [RunJob] *)

Import service.

Section RunJobProperties.

Context `{Imports}.

(** X1. An error of [RunJob] comes with the empty name, also when
[Executor.Start] returned a name next to its error. *)
Theorem RunJob_error_no_name sched (jc : JobContext) trigger (fp : FileProvider) r :
  RunJob sched jc trigger fp = Some r →
  is_Some (err r) →
  name r = "".
Proof.
  unfold RunJob, RunJob_with. intros Hr [e He].
  repeat case_match; simplify_eq; cbn in He; simplify_eq; done.
Qed.



(** X3. When [RunJob] returns an error, either [Executor.Start] was not
called at all, or it was called once and the error wraps the one that
call returned: no job is started behind an error of an earlier step. *)
Theorem RunJob_error_starts sched (jc : JobContext) trigger (fp : FileProvider) r e :
  RunJob sched jc trigger fp = Some r →
  err r = Some e →
  starts (effects r) = []
  ∨ ∃ podspec annotations assigned cause,
      starts (effects r) = [(podspec, annotations)]
      ∧ Executor_Start podspec annotations = (assigned, Some cause)
      ∧ e = cannot_handle_push jc cause.
Proof.
  unfold RunJob, RunJob_with. cbn. intros Hr He.
  repeat case_match; simplify_eq; cbn in He; simplify_eq; cbn; eauto 10.
Qed.

End RunJobProperties.

Lemma RunJob_error_no_name_witness :
  ∃ r, @RunJob (example.imports example.one_read example.verbatim)
               [] example.jc true example.empty_repo = Some r
       ∧ name r = "".
Proof.
  eexists. split; [reflexivity|].
  apply (@RunJob_error_no_name (example.imports example.one_read example.verbatim)
           [] example.jc true example.empty_repo _ eq_refl).
  eexists. reflexivity.
Defined.


Lemma RunJob_error_starts_witness :
  ∃ r, @RunJob (example.imports example.one_read example.verbatim)
               [] example.jc true example.empty_repo = Some r
       ∧ starts (effects r) = [].
Proof.
  eexists. split; [reflexivity|].
  destruct (@RunJob_error_starts (example.imports example.one_read example.verbatim)
              [] example.jc true example.empty_repo _ _ eq_refl eq_refl)
    as [Hnone|(podspec & annotations & assigned & cause & Hone & _)].
  - exact Hnone.
  - discriminate Hone.
Defined.

Section CompileOrigins.

Context {PodSpec : Type}.
Implicit Types (st : @compile_state PodSpec) (d : Decoder PodSpec).




End CompileOrigins.


(** ** The webhook handlers *)

Section HandlerProperties.

Context `{GitHub}.

(** The push event with the owner [o], the repository [rp] and the ref
[v]. *)
Local Abbreviation push_of o rp v :=
  {| github.event_Repo :=
       Some {| github.repo_Owner := Some {| github.user_Name := Some o |};
               github.repo_Name := Some rp |};
     github.event_Ref := Some v |}.

(** The file provider [processPushEvent] hands to [RunJob]. *)
Local Abbreviation fp_of jc :=
  (λ path, DownloadContents (dl_owner (fp_call jc path)) (dl_repo (fp_call jc path))
                            (dl_path (fp_call jc path)) (dl_ref (fp_call jc path))).

(** What [RunJob] does is no call of [srv.OnError] or [http.Error]. *)
Lemma observe_quiet (call : string → download) (effs : list effect) :
  Forall (λ rep, is_OnError rep = false ∧ is_HttpError rep = false) (observe call <$> effs).
Proof. induction effs as [|[path|t|podspec annotations] effs IH]; cbn; by constructor. Qed.


(** How a call of [processPushEvent] for a complete event ends. *)
Lemma processPushEvent_complete sched (o rp v : string) :
  let jc := {| Owner := o; Repo := rp; Revision := v |} in
  processPushEvent sched (push_of o rp v)
  = match RunJob sched jc JobTriggerPush (fp_of jc) with
    | None => Blocked (observe (fp_call jc) <$> RunJob_done RepoConfig_methods sched jc (fp_of jc))
    | Some r => Finished ((observe (fp_call jc) <$> effects r)
                          ++ match err r with Some e => [OnError e] | None => [] end)
    end.
Proof. reflexivity. Qed.

(** A call of [processPushEvent] that returns was made for an event with
an owner, a repository name and a ref, and [RunJob] returned. *)
Lemma processPushEvent_Finished sched event reps :
  processPushEvent sched event = Finished reps →
  ∃ o rp v r,
    event = push_of o rp v
    ∧ RunJob sched {| Owner := o; Repo := rp; Revision := v |} JobTriggerPush
             (fp_of {| Owner := o; Repo := rp; Revision := v |}) = Some r
    ∧ reps = (observe (fp_call {| Owner := o; Repo := rp; Revision := v |}) <$> effects r)
             ++ match err r with Some e => [OnError e] | None => [] end.
Proof.
  destruct event as [[[[[[o|]]|] [rp|]]|] [v|]]; try done.
  rewrite processPushEvent_complete. cbn zeta.
  destruct (RunJob _ _ _ _) as [r|] eqn:Hr; [|done].
  intros [= <-]. by exists o, rp, v, r.
Qed.

(** X5. When the push event lacks its repository, the owner of the
repository, the name of the owner, the name of the repository or the
ref, [processPushEvent] panics, and it has not downloaded anything,
spawned a goroutine, started a job or called [srv.OnError] by then. *)
Theorem processPushEvent_panics sched (event : github.PushEvent) :
  (¬ ∃ o rp v, event = push_of o rp v) →
  processPushEvent sched event = Panicked [].
Proof.
  intros Hno. destruct event as [[[[[[o|]]|] [rp|]]|] [v|]]; try done.
  destruct Hno. by exists o, rp, v.
Qed.


(** X7. [processPushEvent] never answers the request with [http.Error].
It calls [srv.OnError] at most once, as the last thing it does, with an
error of [RunJob] that names the job context of the event. *)
Theorem processPushEvent_reports sched (o rp v : string) reps :
  processPushEvent sched (push_of o rp v) = Finished reps →
  Forall (λ rep, is_HttpError rep = false) reps
  ∧ (Forall (λ rep, is_OnError rep = false) reps
     ∨ ∃ front cause,
         reps = front ++ [OnError (wrapError
                  ("cannot handle push to "
                   +:+ JobContext_String {| Owner := o; Repo := rp; Revision := v |})
                  cause)]
         ∧ Forall (λ rep, is_OnError rep = false) front).
Proof.
  intros Hp. apply processPushEvent_Finished in Hp
    as (o' & rp' & v' & r & [= <- <- <-] & Hr & ->).
  pose proof (observe_quiet (fp_call {| Owner := o; Repo := rp; Revision := v |})
                            (effects r)) as Hq.
  split.
  - apply Forall_app. split.
    + eapply Forall_impl; [exact Hq|]. by intros rep [_ ?].
    + destruct (err r); by repeat constructor.
  - destruct (err r) as [e|] eqn:He.
    + right. destruct (RunJob_with_err _ _ _ _ _ _ _ Hr He) as [cause ->].
      eexists _, cause. split; [reflexivity|].
      eapply Forall_impl; [exact Hq|]. by intros rep [? _].
    + left. rewrite app_nil_r. eapply Forall_impl; [exact Hq|]. by intros rep [? _].
Qed.

(** X8. [handleGithubWebhook] answers with status 500 in three cases
only: the payload is not valid, the payload cannot be parsed, or the
event is of a type it does not handle.  It then hands the error to
[srv.OnError] first and has done nothing else.  In every other case it
writes no answer: it does nothing at all for a commit comment and a
create event, and what [processPushEvent] does for a push event, also
when the job could not be started. *)
Theorem handleGithubWebhook_answers gh sched (r : Request) reps :
  handleGithubWebhook gh sched r = Finished reps →
  (∃ e, reps = [OnError e; HttpError (Error e) 500]
        ∧ (ValidatePayload r (WebhookSecret gh) = fail e
           ∨ (∃ payload, ValidatePayload r (WebhookSecret gh) = ok payload
                         ∧ ParseWebHook (WebHookType r) payload = fail e)
           ∨ (∃ payload rendering,
                ValidatePayload r (WebhookSecret gh) = ok payload
                ∧ ParseWebHook (WebHookType r) payload = ok (github.OtherEvent rendering)
                ∧ e = errorString ("unhandled GitHub event: " +:+ rendering))))
  ∨ (Forall (λ rep, is_HttpError rep = false) reps
     ∧ ∃ payload event,
         ValidatePayload r (WebhookSecret gh) = ok payload
         ∧ ParseWebHook (WebHookType r) payload = ok event
         ∧ match event with
           | github.CommitCommentEvent | github.CreateEvent => reps = []
           | github.APushEvent event => processPushEvent sched event = Finished reps
           | github.OtherEvent _ => False
           end).
Proof.
  unfold handleGithubWebhook.
  destruct (ValidatePayload r (WebhookSecret gh)) as [payload|e] eqn:Hv.
  2:{ intros [= <-]. left. exists e. eauto. }
  destruct (ParseWebHook (WebHookType r) payload) as [event|e] eqn:Hparse.
  2:{ intros [= <-]. left. exists e. split; [done|]. right. left. eauto. }
  destruct event as [| |event|rendering].
  - intros [= <-]. right. split; [constructor|]. by exists payload, github.CommitCommentEvent.
  - intros [= <-]. right. split; [constructor|]. by exists payload, github.CreateEvent.
  - destruct (processPushEvent sched event) as [done|done|done] eqn:Hp; [|by intros [=]..].
    cbn. rewrite app_nil_r. intros [= <-]. right. split.
    + pose proof Hp as Hp'. apply processPushEvent_Finished in Hp'
        as (o & rp & v & r' & -> & Hr & ->).
      apply Forall_app. split.
      * eapply Forall_impl; [apply observe_quiet|]. by intros rep [_ ?].
      * destruct (err r'); by repeat constructor.
    + by exists payload, (github.APushEvent event).
  - intros [= <-]. left.
    exists (errorString ("unhandled GitHub event: " +:+ rendering)).
    split; [done|]. right. right. eauto.
Qed.

(** X13. A request whose payload is valid and parses to a push event
that lacks its repository, the owner of the repository, one of the two
names or the ref makes [handleGithubWebhook] panic: the deferred
function finds no error, so the panic leaves the handler with no call of
[srv.OnError], no answer written and nothing downloaded. *)
Theorem handleGithubWebhook_panics gh sched (r : Request) payload event :
  ValidatePayload r (WebhookSecret gh) = ok payload →
  ParseWebHook (WebHookType r) payload = ok (github.APushEvent event) →
  (¬ ∃ o rp v, event = push_of o rp v) →
  handleGithubWebhook gh sched r = Panicked [].
Proof.
  intros Hv Hparse Hno. unfold handleGithubWebhook. rewrite Hv, Hparse.
  destruct event as [[[[[[o|]]|] [rp|]]|] [v|]]; try done.
  destruct Hno. by exists o, rp, v.
Qed.

End HandlerProperties.

Lemma processPushEvent_panics_witness :
  @processPushEvent _ (example_service.github_of github.CreateEvent example.repo)
                    (decode_first 1) example_service.push_without_ref
  = Panicked [].
Proof.
  apply (@processPushEvent_panics _
           (example_service.github_of github.CreateEvent example.repo)).
  intros (o & rp & v & Heq). discriminate Heq.
Defined.


Lemma processPushEvent_reports_witness :
  ∃ reps,
    @processPushEvent _ (example_service.github_of github.CreateEvent example.empty_repo)
                      [] example_service.push = Finished reps
    ∧ Forall (λ rep, is_HttpError rep = false) reps
    ∧ reps = [Download "acme" "widgets" ".keep.yaml" "refs/heads/main";
              OnError (wrapError "cannot handle push to acme/widgets@refs/heads/main"
                                 (errorString "not found"))].
Proof.
  eexists. split; [reflexivity|]. split; [|reflexivity].
  apply (@processPushEvent_reports _
           (example_service.github_of github.CreateEvent example.empty_repo)
           [] "acme" "widgets" "refs/heads/main").
  reflexivity.
Defined.

Lemma handleGithubWebhook_panics_witness :
  @handleGithubWebhook _
    (example_service.github_of (github.APushEvent example_service.push_without_ref)
                               example.repo)
    {| WebhookSecret := [] |} [] []
  = Panicked [].
Proof.
  apply (@handleGithubWebhook_panics _
           (example_service.github_of (github.APushEvent example_service.push_without_ref)
                                      example.repo)
           {| WebhookSecret := [] |} [] [] [] example_service.push_without_ref);
    [reflexivity|reflexivity|].
  intros (o & rp & v & Heq). discriminate Heq.
Defined.

Lemma handleGithubWebhook_answers_witness :
  let gh := {| WebhookSecret := [] |} in
  ∃ reps,
    @handleGithubWebhook _ (example_service.github_of (github.OtherEvent "fork") example.repo)
                         gh [] [] = Finished reps
    ∧ reps = [OnError (errorString "unhandled GitHub event: fork");
              HttpError "unhandled GitHub event: fork" 500].
Proof.
  intros gh. eexists. split; [reflexivity|].
  destruct (@handleGithubWebhook_answers _
              (example_service.github_of (github.OtherEvent "fork") example.repo)
              gh [] [] _ eq_refl) as [(e & Hreps & _)|[Hquiet _]].
  - reflexivity.
  - reflexivity.
Defined.

(** ** [ListJobs] *)

Section ListJobsProperties.

Context {JobStatus AnnotationFilter : Type}.
Implicit Types (result : list JobStatus) (res : list (option JobStatus)).
Implicit Types (Find : list AnnotationFilter → Z → Z → list JobStatus * Z * option error).

(** The loop of [ListJobs], from the index [length done] on: it stays in
range, keeps what is before the index and fills the rest. *)
Lemma point_all_from result : ∀ (m : nat) (done : list (option JobStatus)),
  length done + m = length result →
  point_all result (seq (length done) m) (done ++ replicate m None)
  = Some (done ++ (Some <$> take m (drop (length done) result))).
Proof.
  induction m as [|m IH]; intros done Hlen; cbn.
  - done.
  - unfold point_at.
    destruct (result !! length done) as [job|] eqn:Hjob.
    2:{ apply lookup_ge_None in Hjob. lia. }
    rewrite decide_True by (rewrite length_app; cbn; lia).
    rewrite insert_app_r_alt by lia. rewrite Nat.sub_diag. cbn.
    specialize (IH (done ++ [Some job])).
    rewrite length_app in IH. cbn in IH. rewrite Nat.add_1_r in IH.
    rewrite <- app_assoc in IH. cbn in IH. rewrite IH by lia.
    rewrite (drop_S _ _ _ Hjob). cbn. by rewrite <- app_assoc.
Qed.

Lemma point_all_result result :
  point_all result (seq 0 (length result)) (replicate (length result) None)
  = Some (Some <$> result).
Proof.
  pose proof (point_all_from result (length result) [] eq_refl) as Hall.
  cbn in Hall. by rewrite Hall, firstn_all.
Qed.

(** X9. When [Find] returns without error, [ListJobs] replies: the loop
over the records never leaves the slices.  The reply holds, in the order
of [Find], one pointer per record, none of them nil, each to the record
at the same index. *)
Theorem ListJobs_reply Find (req : ListJobsRequest) result (total : Z) :
  Find (Filter req) (Start req) (Limit req) = (result, total, None) →
  ∃ resp, ListJobs Find req = Some (Reply resp)
          ∧ length (Result resp) = length result
          ∧ ∀ i : nat, i < length result → Result resp !! i = Some (result !! i).
Proof.
  intros HFind. unfold ListJobs. rewrite HFind, point_all_result.
  eexists. split; [reflexivity|]. cbn. split; [by rewrite length_fmap|].
  intros i Hi. rewrite list_lookup_fmap.
  destruct (result !! i) eqn:Hres; [done|]. apply lookup_ge_None in Hres. lia.
Qed.

(** X10. The total of a reply is the total of [Find] cut to 32 bits: a
number from -2^31 up to 2^31 - 1 that differs from the total of [Find]
by a multiple of 2^32, hence the total itself exactly when that fits
32 bits. *)
Theorem ListJobs_Total Find (req : ListJobsRequest) result (total : Z) :
  Find (Filter req) (Start req) (Limit req) = (result, total, None) →
  ∃ resp, ListJobs Find req = Some (Reply resp)
          ∧ (- 2 ^ 31 ≤ Total resp < 2 ^ 31)%Z
          ∧ (∃ q : Z, Total resp = total + q * 2 ^ 32)%Z
          ∧ (Total resp = total ↔ - 2 ^ 31 ≤ total < 2 ^ 31)%Z.
Proof.
  intros HFind. unfold ListJobs. rewrite HFind, point_all_result.
  eexists. split; [reflexivity|]. cbn. unfold int32.
  pose proof (Z.mod_pos_bound (total + 2 ^ 31) (2 ^ 32) ltac:(lia)) as Hbound.
  pose proof (Z.div_mod (total + 2 ^ 31) (2 ^ 32) ltac:(lia)) as Hdiv.
  split; [lia|]. split.
  - exists (- ((total + 2 ^ 31) `div` 2 ^ 32))%Z. lia.
  - split; [lia|]. intros Hfits.
    rewrite Z.mod_small by lia. lia.
Qed.

End ListJobsProperties.

Lemma ListJobs_reply_witness :
  ∃ resp,
    ListJobs example_service.find {| Filter := []; Start := 0; Limit := 0 |} = Some (Reply resp)
    ∧ length (Result resp) = 2
    ∧ Result resp !! 0 = Some (Some (example.job "job-1" 1)).
Proof.
  destruct (ListJobs_reply example_service.find {| Filter := []; Start := 0; Limit := 0 |}
              _ _ eq_refl) as (resp & Hresp & Hlen & Hat).
  exists resp. split; [exact Hresp|]. split; [exact Hlen|].
  apply (Hat 0). vm_compute. lia.
Defined.

Lemma ListJobs_Total_witness :
  ∃ resp,
    ListJobs example_service.find {| Filter := []; Start := 0; Limit := 1 |} = Some (Reply resp)
    ∧ Total resp = 2%Z.
Proof.
  assert (example_service.find [] 0 1 = ((example_service.find [] 0 1).1.1, 2%Z, None))
    as Hfind by (vm_compute; reflexivity).
  destruct (ListJobs_Total example_service.find {| Filter := []; Start := 0; Limit := 1 |}
              _ _ Hfind) as (resp & Hresp & _ & _ & Hfits).
  exists resp. split; [exact Hresp|]. apply Hfits. lia.
Defined.

(** ** Compiling twice *)

Section CompileTwice.

Context `{Imports}.


End CompileTwice.



(** A write that is read in two parts arrives whole. *)
Lemma feed_in_two_reads (a b c : byte) :
  feed example_service.by_two [[a; b; c]] = Some ([a; b; c], None, [])
  ∧ compile (decode_first 2) [] example_service.by_two
            {| writes := [[a; b; c]]; rresult := None |}
    = Some ([a; b; c], None).
Proof. split; reflexivity. Qed.
